(** * NotificationHub: the notification queue of
    [electron/app/components/NotificationHub/NotificationHub.tsx]

    The component keeps three state cells ([items], [refMap], [cancelMap]) and
    one module-level counter ([id]).  Its callbacks ([push], [onRest], the
    [Content] ref callback, [leave], the button's [onClick]) are embedded here
    as functions on an explicit [world]; the options it hands to react-spring's
    [useTransition] ([from], [enter], [leave], [config]) are embedded as data.

    The embedding covers one mounted instance.  React applies the updater
    functions given to [setItems] one after the other, each to the result of
    the one before; here each is applied when it is submitted. *)

From Stdlib Require QArith_base.
From stdpp Require Import base gmap strings list sorting pretty.

Local Open Scope string_scope.
Local Open Scope list_scope.
Local Open Scope Z_scope.

(** ** JavaScript values and objects *)

(** The primitive values a notification's properties take.  Numbers are the
    integer-valued ones (the counter, pixel heights). *)
Inductive value :=
  | VUndefined
  | VBool (b : bool)
  | VNum (n : Z)
  | VStr (s : string).

#[global] Instance value_eq_dec : EqDecision value.
Proof. solve_decision. Defined.

(** A plain object: its own enumerable properties by name. *)
Abbreviation obj := (gmap string value).

(** [o.p]: reading an absent property yields [undefined]. *)
Definition get (o : obj) (p : string) : value := default VUndefined (o !! p).

(** [{ key: k, ...msg }]: the literal sets [key] first and then copies every
    own property of [msg], so a [key] carried by [msg] wins. *)
Definition spread_key (k : Z) (msg : obj) : obj := msg ∪ {[ "key" := VNum k ]}.

(** [n++] on a JavaScript number holding a non-negative integer: the old value,
    and the incremented one.  Integers are exact up to [2^53]; there [n + 1]
    rounds back to [n]. *)
Definition exact_limit : Z := 9007199254740992.

Definition post_incr (n : Z) : Z * Z :=
  (n, if bool_decide (n < exact_limit) then n + 1 else n).

(** ** The component's state *)

(** An item of the queue is an object created by [push]; [addr] is its
    identity as an object (what a [WeakMap] keys on), [props] its contents,
    which are never mutated. *)
Record item := Item { addr : nat; props : obj }.

#[global] Instance item_eq_dec : EqDecision item.
Proof. solve_decision. Defined.

(** [item.key], the identity [useTransition] and [onRest] go by. *)
Definition key (it : item) : value := get (props it) "key".

(** The DOM element behind [Content], as far as the component reads it. *)
Record element := Element { offsetHeight : Z }.

(** The [cancel] function react-spring passes to a [leave] script, named by the
    animation controller it stops. *)
Inductive handle := Cancel (ctrl : nat).

#[global] Instance handle_eq_dec : EqDecision handle.
Proof. solve_decision. Defined.

Record world := World {
  id : Z;                         (* [let id = 0], module level *)
  next_addr : nat;                (* the next fresh object identity *)
  items : list item;              (* [useState([])] *)
  refMap : gmap nat element;      (* [new WeakMap()], keyed by item object *)
  cancelMap : gmap nat handle;    (* [new WeakMap()], keyed by item object *)
  cancelled : list handle         (* the cancel functions called so far *)
}.

(** The state at first mount. *)
Definition init : world := World 0 0 [] ∅ ∅ [].

Definition identities (w : world) : list value := key <$> items w.

(** ** The callbacks *)

(** [(msg) => setItems((state) => [...state, { key: id++, ...msg }])] *)
Definition push (msg : obj) (w : world) : world :=
  let '(k, id') := post_incr (id w) in
  World id' (S (next_addr w))
        (items w ++ [Item (next_addr w) (spread_key k msg)])
        (refMap w) (cancelMap w) (cancelled w).

(** [onRest: (item) => setItems((state) => state.filter((i) => i.key !== item.key))] *)
Definition onRest (it : item) (w : world) : world :=
  World (id w) (next_addr w)
        (filter (λ i, key i ≠ key it) (items w))
        (refMap w) (cancelMap w) (cancelled w).

(** [ref={(ref) => ref && refMap.set(item, ref)}]: React calls it with the
    element on mount and with [null] on unmount. *)
Definition content_ref (it : item) (r : option element) (w : world) : world :=
  match r with
  | Some el =>
      World (id w) (next_addr w) (items w)
            (<[addr it := el]> (refMap w)) (cancelMap w) (cancelled w)
  | None => w
  end.

(** [cancelMap.set(item, cancel)], the first statement of the [leave] script. *)
Definition cancelMap_set (it : item) (c : handle) (w : world) : world :=
  World (id w) (next_addr w) (items w)
        (refMap w) (<[addr it := c]> (cancelMap w)) (cancelled w).

(** The click event, as far as the handler touches it. *)
Record mouse_event := MouseEvent { propagation_stopped : bool }.

(** [onClick={(e) => { e.stopPropagation();
                       cancelMap.has(item) && cancelMap.get(item)(); }}] *)
Definition onClick (e : mouse_event) (it : item) (w : world) : mouse_event * world :=
  (MouseEvent true,
   match cancelMap w !! addr it with
   | Some c =>
       World (id w) (next_addr w) (items w)
             (refMap w) (cancelMap w) (cancelled w ++ [c])
   | None => w
   end).

(** ** What the rest of the system does to the component

    The producer calls [push]; React calls the [Content] ref callback and the
    click handler; react-spring calls [onRest] and starts [leave] scripts.  The
    component has no say in the order. *)
Inductive event :=
  | Pushed (msg : obj)
  | Rested (it : item)
  | ContentRef (it : item) (r : option element)
  | LeaveStarted (it : item) (cancel : handle)
  | Clicked (e : mouse_event) (it : item).

Definition step (w : world) (ev : event) : world :=
  match ev with
  | Pushed msg => push msg w
  | Rested it => onRest it w
  | ContentRef it r => content_ref it r w
  | LeaveStarted it c => cancelMap_set it c w
  | Clicked e it => (onClick e it w).2
  end.

Definition run (evs : list event) (w : world) : world := foldl step w evs.

(** How many of the events are producer calls. *)
Definition is_push (ev : event) : bool :=
  match ev with Pushed _ => true | _ => false end.

Fixpoint pushes (evs : list event) : Z :=
  match evs with
  | [] => 0
  | ev :: evs => (if is_push ev then 1 else 0) + pushes evs
  end.

(** A payload of the declared [Notification] shape ([title], [message],
    [die], [titleColor]) has no [key] of its own. *)
Definition plain (ev : event) : Prop :=
  match ev with
  | Pushed msg => msg !! "key" = None
  | _ => True
  end.

(** Every live identity is a counter value handed out earlier, and no two
    live items share one. *)
Definition issued (w : world) (it : item) : Prop :=
  ∃ k, key it = VNum k ∧ 0 ≤ k < id w.

Definition hub_inv (w : world) : Prop :=
  0 ≤ id w ∧ Forall (issued w) (items w) ∧ NoDup (identities w).

(** ** The options handed to [useTransition] *)

(** The animated values of one notification, [opacity], [height] and the
    [life] bar's inset, at the points where an animation rests. *)
Record style := Style { opacity : Z; height : Z; life : string }.

(** The argument of a [next(...)] call names only the values it moves. *)
Record target := Target {
  to_opacity : option Z;
  to_height : option Z;
  to_life : option string
}.

Definition reach (v : style) (t : target) : style :=
  Style (default (opacity v) (to_opacity t))
        (default (height v) (to_height t))
        (default (life v) (to_life t)).

(** [{ tension, friction, precision }] *)
Record spring := Spring {
  tension : QArith_base.Q;
  friction : QArith_base.Q;
  precision : QArith_base.Q
}.

(** [config = { tension: 125, friction: 20, precision: 0.1 }], [timeout = 3000] *)
Definition default_config : spring :=
  Spring (QArith_base.Qmake 125 1) (QArith_base.Qmake 20 1) (QArith_base.Qmake 1 10).

Definition default_timeout : Z := 3000.

(** How one animation step moves: for a fixed time ([{ duration: d }]) or by
    spring physics. *)
Inductive animation :=
  | Timed (duration : Z)
  | Sprung (c : spring).

(** The [config] option is one configuration or an array of them, one per
    [next] call of a script. *)
Inductive config_prop :=
  | Single (a : animation)
  | Stages (l : list animation).

(** The second argument react-spring gives the [config] function. *)
Inductive tstate := Enter | Update | Leave.

Inductive error := TypeError.

(** The body of an [async (next, cancel) => ...] script, statement by
    statement. *)
Inductive script :=
  | Return
  | Throw (e : error)
  | CancelMapSet (it : item) (cancel : handle) (rest : script)
  | AwaitNext (t : target) (rest : script).

(** [from: { opacity: 0, height: 0, life: "100%" }] *)
Definition from : style := Style 0 0 "100%".

(** [enter: (item) => async (next) =>
       await next({ opacity: 1, height: refMap.get(item).offsetHeight })]:
    reading [offsetHeight] of the [undefined] that [refMap.get] returns for an
    item without entry throws. *)
Definition enter (it : item) (w : world) : script :=
  match refMap w !! addr it with
  | Some el => AwaitNext (Target (Some 1) (Some (offsetHeight el)) None) Return
  | None => Throw TypeError
  end.

(** [leave: (item) => async (next, cancel) => {
       cancelMap.set(item, cancel);
       await next({ life: "0%" });
       await next({ opacity: 0 });
       await next({ height: 0 }); }] *)
Definition leave (it : item) (cancel : handle) : script :=
  CancelMapSet it cancel
    (AwaitNext (Target None None (Some "0%"))
       (AwaitNext (Target (Some 0) None None)
          (AwaitNext (Target None (Some 0) None) Return))).

Section Props.

(** The component's props. *)
Variable config : spring.
Variable timeout : Z.

(** [config: (_, state) =>
       state === "leave" ? [{ duration: timeout }, config, config] : config] *)
Definition config_fn (_ : item) (state : tstate) : config_prop :=
  match state with
  | Leave => Stages [Timed timeout; Sprung config; Sprung config]
  | _ => Single (Sprung config)
  end.

End Props.

(** *** How react-spring runs a script

    Each [next(t)] starts an animation towards [t] and resolves when it rests.
    With an array for [config], the [index]-th call of [next] uses the
    [index]-th entry. *)
Definition config_at (cp : config_prop) (index : nat) : option animation :=
  match cp with
  | Single a => Some a
  | Stages l => l !! index
  end.

(** One awaited animation step: where it goes, how it moves, and the values
    it rests at. *)
Record phase := Phase { goal : target; how : option animation; rests_at : style }.

Inductive outcome := Finished | Failed (e : error).

Fixpoint run_script (cp : config_prop) (index : nat) (v : style) (s : script)
    (w : world) : world * list phase * outcome :=
  match s with
  | Return => (w, [], Finished)
  | Throw e => (w, [], Failed e)
  | CancelMapSet it c rest => run_script cp index v rest (cancelMap_set it c w)
  | AwaitNext t rest =>
      let v' := reach v t in
      let '(w', phases, r) := run_script cp (S index) v' rest w in
      (w', Phase t (config_at cp index) v' :: phases, r)
  end.

(** [useTransition(items, (item) => item.key, ...)] follows the items by key:
    comparing the keys it holds with those of the new [items], a key that is
    new enters, one that stays updates, one that is gone leaves. *)
Definition tstate_of (held new : list value) (k : value) : option tstate :=
  if bool_decide (k ∈ new)
  then Some (if bool_decide (k ∈ held) then Update else Enter)
  else if bool_decide (k ∈ held) then Some Leave else None.

(** ** What the component renders *)

(** JavaScript's truthiness of a value. *)
Definition truthy (v : value) : bool :=
  match v with
  | VUndefined => false
  | VBool b => b
  | VNum n => bool_decide (n ≠ 0)
  | VStr s => bool_decide (s ≠ "")
  end.

(** [a || b] *)
Definition js_or (a b : value) : value := if truthy a then a else b.

(** The text a template literal makes of a value; integers print in plain
    decimal, as JavaScript prints them below [10^21]. *)
Definition to_string (v : value) : string :=
  match v with
  | VUndefined => "undefined"
  | VBool true => "true"
  | VBool false => "false"
  | VNum n => pretty n
  | VStr s => s
  end.

(** The viewport, [width] CSS pixels wide, matches
    [@media (max-width: 680px)]. *)
Definition narrow (width : QArith_base.Q) : bool :=
  QArith_base.Qle_bool width (QArith_base.Qmake 680 1).

(** The declarations of [Container] that are computed from its props:
    [top: ${(props) => (props.top ? "2em" : "unset")}],
    [bottom: ${(props) => (props.top ? "unset" : "2em")}],
    [flex-direction: ${(props) => (props.top ? "column-reverse" : "column")}],
    [align-items: ${(props) =>
       props.position === "center" ? "center" : `flex-${props.position || "end"}`}],
    the last one overridden by
    [@media (max-width: 680px) { align-items: center; }], which comes after
    it in the same rule. *)
Record container_css := ContainerCss {
  css_top : string;
  css_bottom : string;
  flex_direction : string;
  align_items : string
}.

Definition Container (width : QArith_base.Q) (p : obj) : container_css :=
  ContainerCss
    (if truthy (get p "top") then "2em" else "unset")
    (if truthy (get p "top") then "unset" else "2em")
    (if truthy (get p "top") then "column-reverse" else "column")
    (if narrow width then "center"
     else if bool_decide (get p "position" = VStr "center") then "center"
     else "flex-" +:+ to_string (js_or (get p "position") (VStr "end"))).

(** One entry of the array [useTransition] returns: react-spring's key for
    the transition, the item, and the animated values. *)
Record transition := Transition { t_key : value; t_item : item; t_props : obj }.

(** What one [Message] shows, and the item its ref callback and its click
    handler close over. *)
Record message_view := MessageView {
  view_key : value;            (* [key={key}] *)
  view_style : obj;            (* [style={style}] *)
  view_item : item;
  life_right : option value;   (* [<Life style={{ right: life }} />], or [null] *)
  title_color : value;         (* [style={{ color: item.titleColor }}] *)
  title_text : value;          (* [{item.title}] *)
  message_text : value         (* [{item.message}] *)
}.

(** [({ key, item, props: { life, ...style } }) => (<Message ...> ... </Message>)] *)
Definition render_message (t : transition) : message_view :=
  MessageView (t_key t) (delete "life" (t_props t)) (t_item t)
    (if true then Some (get (t_props t) "life") else None)
    (get (props (t_item t)) "titleColor")
    (get (props (t_item t)) "title")
    (get (props (t_item t)) "message").

(** [transitions.map(...)] *)
Definition render (transitions : list transition) : list message_view :=
  render_message <$> transitions.

(** The callbacks a rendered message carries. *)
Definition view_ref (v : message_view) (r : option element) (w : world) : world :=
  content_ref (view_item v) r w.

Definition view_click (v : message_view) (e : mouse_event) (w : world)
    : mouse_event * world :=
  onClick e (view_item v) w.

(** ** Further notions for stating properties *)

(** The event records an element for the object at [a]. *)
Definition measures (a : nat) (ev : event) : bool :=
  match ev with
  | ContentRef it (Some _) => bool_decide (addr it = a)
  | _ => false
  end.

(** The event is one of the two that call [setItems]. *)
Definition sets_items (ev : event) : bool :=
  match ev with
  | Pushed _ | Rested _ => true
  | _ => false
  end.

(** Both identities are counter values, the first the smaller. *)
Definition key_lt (a b : value) : Prop :=
  match a, b with
  | VNum x, VNum y => x < y
  | _, _ => False
  end.

(** The items of the queue are distinct objects, all allocated already. *)
Definition addr_inv (w : world) : Prop :=
  Forall (λ it, (addr it < next_addr w)%nat) (items w) ∧ NoDup (addr <$> items w).

(** ** Sample inputs *)

(** A payload of the declared shape, [{ title: t, message: "m" }]. *)
Definition plain_payload (title : string) : obj :=
  {[ "title" := VStr title; "message" := VStr "m" ]}.

(** A payload that brings a [key] along,
    [{ key: 7, title: "t", message: "m" }]. *)
Definition keyed_payload : obj :=
  {[ "key" := VNum 7; "title" := VStr "t"; "message" := VStr "m" ]}.

(** The item the first push of [plain_payload "a"] creates. *)
Definition item_a : item := Item 0 (spread_key 0 (plain_payload "a")).

Definition sample_run : list event :=
  [Pushed (plain_payload "a"); Pushed (plain_payload "b");
   Rested item_a; Pushed (plain_payload "c")].

(** The first notification on its way out: pushed, measured by React,
    removed from the queue when its entry came to rest, its [leave] script
    started by react-spring. *)
Definition leaving_run : list event :=
  [Pushed (plain_payload "a"); ContentRef item_a (Some (Element 40));
   Rested item_a; LeaveStarted item_a (Cancel 0)].

Definition a_click : mouse_event := MouseEvent false.

(** Two pushes of the payload with a [key] and one of a plain payload: the
    queue holds the identities 7, 7 and 2. *)
Definition keyed_run : list event :=
  [Pushed keyed_payload; Pushed keyed_payload; Pushed (plain_payload "c")].

(** * Properties *)

(** One case per callback. *)
Ltac each_event ev :=
  destruct ev as [?msg|?it|?it [?el|]|?it ?c|?e ?it];
  cbn [step is_push plain] in *.

(** ** The sample runs *)

Example first_push_creates_item_a : items (run (take 1 sample_run) init) = [item_a].
Proof. reflexivity. Qed.

Example sample_run_identities :
  identities (run (take 2 sample_run) init) = [VNum 0; VNum 1]
  ∧ identities (run (take 3 sample_run) init) = [VNum 1]
  ∧ identities (run sample_run init) = [VNum 1; VNum 2].
Proof. repeat split. Qed.

Example leaving_run_state :
  items (run leaving_run init) = []
  ∧ id (run leaving_run init) = 1
  ∧ cancelled (run leaving_run init) = [].
Proof. repeat split. Qed.

(** ** The identity of a pushed item *)

Lemma post_incr_old (n : Z) : (post_incr n).1 = n.
Proof. reflexivity. Qed.

Lemma post_incr_below (n : Z) : n < exact_limit → (post_incr n).2 = n + 1.
Proof. intros Hn. unfold post_incr. simpl. by rewrite bool_decide_eq_true_2. Qed.

Lemma post_incr_mono (n : Z) : n ≤ (post_incr n).2.
Proof. unfold post_incr. simpl. case_bool_decide; lia. Qed.

(** The counter stops at [2^53]: from there on [id++] hands out the same
    value again. *)
Lemma post_incr_saturates : post_incr exact_limit = (exact_limit, exact_limit).
Proof. reflexivity. Qed.

(** At the limit the invariant still holds, yet two pushes of plain payloads
    share one identity: the bound on the counter cannot be dropped. *)
Lemma counter_limit_is_needed :
  identities (run [Pushed (plain_payload "a"); Pushed (plain_payload "b")]
                  (World exact_limit 0 [] ∅ ∅ []))
  = [VNum exact_limit; VNum exact_limit].
Proof. vm_compute. reflexivity. Qed.

Lemma get_spread_key_plain (k : Z) (msg : obj) :
  msg !! "key" = None → get (spread_key k msg) "key" = VNum k.
Proof.
  intros Hmsg. unfold get, spread_key.
  by rewrite lookup_union_r, lookup_singleton_eq.
Qed.

Lemma get_spread_key_own (k : Z) (msg : obj) (v : value) :
  msg !! "key" = Some v → get (spread_key k msg) "key" = v.
Proof.
  intros Hmsg. unfold get, spread_key.
  by rewrite (lookup_union_Some_l _ _ _ v).
Qed.

Lemma get_spread_key_other (k : Z) (msg : obj) (p : string) :
  p ≠ "key" → get (spread_key k msg) p = get msg p.
Proof.
  intros Hp. unfold get, spread_key. rewrite lookup_union.
  rewrite lookup_singleton_ne by done. by destruct (msg !! p).
Qed.

Lemma items_push (msg : obj) (w : world) :
  items (push msg w) = items w ++ [Item (next_addr w) (spread_key (id w) msg)].
Proof. reflexivity. Qed.

Lemma id_push (msg : obj) (w : world) : id (push msg w) = (post_incr (id w)).2.
Proof. reflexivity. Qed.

Lemma identities_push (msg : obj) (w : world) :
  identities (push msg w) = identities w ++ [get (spread_key (id w) msg) "key"].
Proof. unfold identities. rewrite items_push. by rewrite fmap_app. Qed.

Lemma identities_onRest (it : item) (w : world) :
  identities (onRest it w) = filter (λ k, k ≠ key it) (identities w).
Proof.
  unfold identities, onRest. simpl.
  induction (items w) as [|i l IH]; [done|].
  rewrite fmap_cons, !filter_cons. simpl.
  destruct (decide (key i ≠ key it)); by rewrite ?fmap_cons, IH.
Qed.

(** ** Steps and the counter *)

Lemma id_step (w : world) (ev : event) :
  id (step w ev) = if is_push ev then (post_incr (id w)).2 else id w.
Proof.
  each_event ev; try done.
  unfold onClick. simpl. by destruct (cancelMap w !! addr it).
Qed.

Lemma id_step_mono (w : world) (ev : event) : id w ≤ id (step w ev).
Proof. rewrite id_step. destruct (is_push ev); [apply post_incr_mono | lia]. Qed.

Lemma issued_mono (w w' : world) (it : item) :
  id w ≤ id w' → issued w it → issued w' it.
Proof. intros Hle (k & Hk & Hr). exists k. split; [done | lia]. Qed.

Lemma hub_inv_init : hub_inv init.
Proof. repeat split; [done | constructor | constructor]. Qed.

Lemma not_issued_twice (w : world) (k : Z) :
  Forall (issued w) (items w) → id w ≤ k → VNum k ∉ identities w.
Proof.
  intros Hall Hk Hin. unfold identities in Hin.
  apply list_elem_of_fmap in Hin as (it & Hit & Hmem).
  rewrite Forall_forall in Hall. destruct (Hall it Hmem) as (k' & Hk' & Hr).
  rewrite Hk' in Hit. injection Hit as ->. lia.
Qed.

Lemma hub_inv_step (w : world) (ev : event) :
  hub_inv w → plain ev → (is_push ev = true → id w < exact_limit) →
  hub_inv (step w ev).
Proof.
  intros (Hid & Hall & Hnd) Hplain Hlim.
  assert (Hmono := id_step_mono w ev).
  split; [lia|].
  each_event ev.
  - rewrite identities_push, items_push, get_spread_key_plain by done.
    assert (Hnext : id (push msg w) = id w + 1)
      by (rewrite id_push; apply post_incr_below; auto).
    split.
    + apply Forall_app. split.
      * eapply Forall_impl; [done|]. intros it. apply issued_mono. lia.
      * constructor; [|constructor]. exists (id w). split; [|lia].
        by apply get_spread_key_plain.
    + apply NoDup_app. split; [done|]. split; [|apply NoDup_singleton].
      intros v Hv Hin. apply list_elem_of_singleton in Hin as ->.
      by apply (not_issued_twice w (id w)).
  - split.
    + apply Forall_forall. intros i Hi.
      apply list_elem_of_filter in Hi as [_ Hi].
      rewrite Forall_forall in Hall. by apply Hall.
    + rewrite identities_onRest. by apply NoDup_filter.
  - done.
  - done.
  - done.
  - unfold onClick; simpl. destruct (cancelMap w !! addr it); done.
Qed.

(** ** Runs *)

Lemma run_app (evs1 evs2 : list event) (w : world) :
  run (evs1 ++ evs2) w = run evs2 (run evs1 w).
Proof. apply foldl_app. Qed.

Lemma run_cons (ev : event) (evs : list event) (w : world) :
  run (ev :: evs) w = run evs (step w ev).
Proof. reflexivity. Qed.

Lemma pushes_nonneg (evs : list event) : 0 ≤ pushes evs.
Proof. induction evs as [|ev evs IH]; simpl; [lia|]. destruct (is_push ev); lia. Qed.

Lemma pushes_app (evs1 evs2 : list event) :
  pushes (evs1 ++ evs2) = pushes evs1 + pushes evs2.
Proof. induction evs1 as [|ev evs1 IH]; simpl; [lia|]. rewrite IH. lia. Qed.

Lemma run_inv (evs : list event) (w : world) :
  hub_inv w → Forall plain evs → id w + pushes evs ≤ exact_limit →
  hub_inv (run evs w) ∧ id (run evs w) = id w + pushes evs.
Proof.
  revert w. induction evs as [|ev evs IH]; intros w Hinv Hplain Hlim.
  - simpl in *. split; [done | lia].
  - apply Forall_cons in Hplain as [Hev Hplain]. simpl in Hlim.
    assert (Hpos := pushes_nonneg evs).
    assert (Hpush : is_push ev = true → id w < exact_limit)
      by (intros Heq; rewrite Heq in Hlim; lia).
    assert (Hid : id (step w ev) = id w + (if is_push ev then 1 else 0)).
    { rewrite id_step. destruct (is_push ev); [|lia].
      apply post_incr_below. auto. }
    rewrite run_cons.
    destruct (IH (step w ev)) as [Hinv' Hid']; [by apply hub_inv_step | done | lia |].
    split; [done|]. simpl. lia.
Qed.

(** Every run of plain payloads from the first mount that keeps the counter
    within the limit ends in a state of the invariant. *)
Lemma reachable_inv (evs : list event) :
  Forall plain evs → pushes evs ≤ exact_limit → hub_inv (run evs init).
Proof.
  intros Hplain Hlim.
  by destruct (run_inv evs init hub_inv_init Hplain) as [Hinv _].
Qed.

Lemma step_keeps_out (w : world) (ev : event) (k : Z) :
  plain ev → k < id w → VNum k ∉ identities w → VNum k ∉ identities (step w ev).
Proof.
  intros Hplain Hk Hout.
  each_event ev; try done.
  - rewrite identities_push, get_spread_key_plain by done.
    intros [Hin|Hin]%elem_of_app; [done|].
    apply list_elem_of_singleton in Hin. injection Hin as ->. lia.
  - rewrite identities_onRest. intros [_ Hin]%list_elem_of_filter. done.
  - unfold onClick; simpl. by destruct (cancelMap w !! addr it).
Qed.

Lemma run_keeps_out (evs : list event) (w : world) (k : Z) :
  Forall plain evs → k < id w → VNum k ∉ identities w →
  VNum k ∉ identities (run evs w).
Proof.
  revert w. induction evs as [|ev evs IH]; intros w Hplain Hk Hout; [done|].
  apply Forall_cons in Hplain as [Hev Hplain]. rewrite run_cons.
  apply IH; [done | | by apply step_keeps_out].
  pose proof (id_step_mono w ev). lia.
Qed.

Lemma pushes_take (n : nat) (evs : list event) : pushes (take n evs) ≤ pushes evs.
Proof.
  rewrite <- (take_drop n evs) at 2. rewrite pushes_app.
  pose proof (pushes_nonneg (drop n evs)). lia.
Qed.

(** C1, as the claim states it, fails: the literal [{ key: id++, ...msg }]
    lets a [key] of the payload replace the counter's value, so two calls with
    such a payload put the same identity in the queue twice, while the counter
    has moved to 2. *)
Lemma payload_key_replaces_counter :
  identities (run [Pushed keyed_payload; Pushed keyed_payload] init) = [VNum 7; VNum 7]
  ∧ id (run [Pushed keyed_payload; Pushed keyed_payload] init) = 2
  ∧ ¬ NoDup (identities (run [Pushed keyed_payload; Pushed keyed_payload] init)).
Proof.
  assert (Hids : identities (run [Pushed keyed_payload; Pushed keyed_payload] init)
                 = [VNum 7; VNum 7]) by (vm_compute; reflexivity).
  split; [done|]. split; [reflexivity|].
  rewrite Hids. intros Hnd. apply NoDup_cons in Hnd as [Hnotin _].
  apply Hnotin. constructor.
Qed.

(** C1 (amended): in every run in which the payloads carry no [key] of their
    own and the counter stays within the exactly representable integers (at
    most [2^53]), whatever removals, measurements and clicks come in between:
    the live identities are pairwise distinct after every prefix of the run;
    each push appends exactly one item whose identity is the counter's current
    value, and moves the counter up by one; and an identity below the counter
    that is not live is never live again. *)
Theorem plain_pushes_issue_fresh_identities (evs : list event) (w : world) :
  hub_inv w → Forall plain evs → id w + pushes evs ≤ exact_limit →
  (∀ n : nat, NoDup (identities (run (take n evs) w)))
  ∧ (∀ evs1 msg evs2, evs = evs1 ++ Pushed msg :: evs2 →
       ∃ it, items (push msg (run evs1 w)) = items (run evs1 w) ++ [it]
             ∧ key it = VNum (id (run evs1 w))
             ∧ id (run evs1 w) = id w + pushes evs1
             ∧ id (push msg (run evs1 w)) = id (run evs1 w) + 1)
  ∧ (∀ evs1 evs2 k, evs = evs1 ++ evs2 →
       k < id (run evs1 w) → VNum k ∉ identities (run evs1 w) →
       VNum k ∉ identities (run evs w)).
Proof.
  intros Hinv Hplain Hlim. split; [|split].
  - intros n.
    destruct (run_inv (take n evs) w) as [(_ & _ & Hnd) _]; try done.
    + by apply Forall_take.
    + pose proof (pushes_take n evs). lia.
  - intros evs1 msg evs2 ->.
    apply Forall_app in Hplain as [Hplain1 Hplain2].
    apply Forall_cons in Hplain2 as [Hmsg _]. simpl in Hmsg.
    rewrite pushes_app in Hlim. simpl in Hlim.
    pose proof (pushes_nonneg evs2).
    destruct (run_inv evs1 w) as [_ Hid]; [done | done | lia |].
    eexists. split; [apply items_push|].
    split; [by apply get_spread_key_plain|]. split; [done|].
    rewrite id_push. apply post_incr_below. lia.
  - intros evs1 evs2 k -> Hk Hout.
    apply Forall_app in Hplain as [_ Hplain2].
    rewrite run_app. by apply run_keeps_out.
Qed.

Lemma plain_pushes_issue_fresh_identities_witness :
  NoDup (identities (run (take 4 sample_run) init)).
Proof.
  refine (proj1 (plain_pushes_issue_fresh_identities sample_run init _ _ _) 4%nat).
  - split; [simpl; lia | split; constructor].
  - repeat constructor.
  - vm_compute. discriminate.
Defined.

(** ** Keys entering and leaving *)

Lemma tstate_of_new (held new : list value) (k : value) :
  k ∈ new → k ∉ held → tstate_of held new k = Some Enter.
Proof.
  intros Hin Hout. unfold tstate_of.
  by rewrite bool_decide_eq_true_2, bool_decide_eq_false_2.
Qed.

Lemma tstate_of_kept (held new : list value) (k : value) :
  k ∈ new → k ∈ held → tstate_of held new k = Some Update.
Proof.
  intros Hin Hheld. unfold tstate_of. by rewrite !bool_decide_eq_true_2.
Qed.

Lemma tstate_of_gone (held new : list value) (k : value) :
  k ∉ new → k ∈ held → tstate_of held new k = Some Leave.
Proof.
  intros Hout Hheld. unfold tstate_of.
  by rewrite bool_decide_eq_false_2, bool_decide_eq_true_2.
Qed.

(** ** Removal *)

Lemma filter_all {A} (P : A → Prop) `{!∀ x, Decision (P x)} (l : list A) :
  Forall P l → filter P l = l.
Proof.
  induction 1 as [|x l Hx _ IH]; [done|].
  by rewrite filter_cons_True, IH.
Qed.

Lemma onRest_absent (it : item) (w : world) :
  key it ∉ identities w → onRest it w = w.
Proof.
  intros Hout. destruct w as [n a l rm cm cs]. unfold onRest. simpl. f_equal.
  apply filter_all, Forall_forall. intros i Hi Heq.
  apply Hout. unfold identities. simpl. rewrite <- Heq.
  by apply list_elem_of_fmap_2.
Qed.

Lemma onRest_removes (it : item) (w : world) : key it ∉ identities (onRest it w).
Proof. rewrite identities_onRest. intros [Hne _]%list_elem_of_filter. done. Qed.

(** Once [onRest] has taken a live identity out of [items], [useTransition]
    sees its key gone: this is what starts the item's [leave] script. *)
Lemma removed_item_leaves (it : item) (w : world) :
  key it ∈ identities w →
  tstate_of (identities w) (identities (onRest it w)) (key it) = Some Leave.
Proof. intros Hin. apply tstate_of_gone; [apply onRest_removes | done]. Qed.

(** C2: removing the same identity a second time changes nothing: the first
    call leaves no item with that identity in the queue, the second returns
    the very state the first produced (so the queue is as long as after one
    call), and removing an identity that is not in the queue is the identity
    function, never an error. *)
Theorem onRest_idempotent (it : item) (w : world) :
  onRest it (onRest it w) = onRest it w
  ∧ (key it ∉ identities (onRest it w))
  ∧ length (items (onRest it (onRest it w))) = length (items (onRest it w))
  ∧ (key it ∉ identities w → onRest it w = w).
Proof.
  assert (Hidem : onRest it (onRest it w) = onRest it w)
    by apply onRest_absent, onRest_removes.
  split; [done|]. split; [apply onRest_removes|].
  split; [by rewrite Hidem | apply onRest_absent].
Qed.

Lemma onRest_idempotent_witness :
  onRest item_a (run (take 3 sample_run) init) = run (take 3 sample_run) init.
Proof.
  refine (proj2 (proj2 (proj2 (onRest_idempotent item_a
            (run (take 3 sample_run) init)))) _).
  vm_compute. intros Hin. apply list_elem_of_singleton in Hin. discriminate.
Defined.

(** C10, as the claim states it, fails: [onRest] filters by [key], so in the
    queue with identities 7, 7, 2 removing the first item takes the second,
    a different object, out with it.  Nor is the state [useTransition] gives
    a kept item left alone: the item pushed second in the sample run enters
    while the first is queued, and counts as an update once the first has
    been removed. *)
Lemma removal_takes_every_item_of_the_key :
  identities (run keyed_run init) = [VNum 7; VNum 7; VNum 2]
  ∧ items (run keyed_run init) !! 1%nat = Some (Item 1 (spread_key 1 keyed_payload))
  ∧ items (onRest (Item 0 (spread_key 0 keyed_payload)) (run keyed_run init))
    = [Item 2 (spread_key 2 (plain_payload "c"))]
  ∧ tstate_of (identities (run (take 1 sample_run) init))
              (identities (run (take 2 sample_run) init)) (VNum 1) = Some Enter
  ∧ tstate_of (identities (run (take 2 sample_run) init))
              (identities (onRest item_a (run (take 2 sample_run) init))) (VNum 1)
    = Some Update.
Proof. repeat split. Qed.

(** C10 (amended): [onRest] removes every item whose identity is the removed
    one's and keeps every item of another identity: the queue stays a
    sub-sequence of what it was; an item is kept exactly when its identity
    differs from the removed one; a kept item moves to the position given by
    the number of kept items before it, so the kept items stay in their
    order; and the counter, both caches and the record of cancellations are
    untouched.  For [useTransition] every identity that is kept counts as an
    update, neither entering nor leaving, and the removed identity, if it was
    in the queue, leaves. *)
Theorem onRest_keeps_the_others (it : item) (w : world) :
  items (onRest it w) `sublist_of` items w
  ∧ (∀ j, j ∈ items (onRest it w) ↔ key j ≠ key it ∧ j ∈ items w)
  ∧ (∀ (i : nat) j, items w !! i = Some j → key j ≠ key it →
       items (onRest it w)
         !! (length (filter (λ x, key x ≠ key it) (take i (items w)))) = Some j)
  ∧ id (onRest it w) = id w
  ∧ refMap (onRest it w) = refMap w
  ∧ cancelMap (onRest it w) = cancelMap w
  ∧ cancelled (onRest it w) = cancelled w
  ∧ (∀ k, k ∈ identities (onRest it w) →
       tstate_of (identities w) (identities (onRest it w)) k = Some Update)
  ∧ (key it ∈ identities w →
       tstate_of (identities w) (identities (onRest it w)) (key it) = Some Leave).
Proof.
  split; [apply sublist_filter|].
  split; [intros j; unfold onRest; simpl; by rewrite list_elem_of_filter|].
  split; [|do 4 (split; [done|]); split].
  - intros i j Hi Hj. unfold onRest. simpl.
    set (P := λ x, key x ≠ key it).
    assert (Hsplit : filter P (items w)
                     = filter P (take i (items w)) ++ j :: filter P (drop (S i) (items w))).
    { rewrite <- (filter_cons_True P) by done.
      by rewrite <- filter_app, take_drop_middle. }
    rewrite Hsplit. by apply list_lookup_middle.
  - intros k Hk. apply tstate_of_kept; [done|].
    rewrite identities_onRest in Hk. by apply list_elem_of_filter in Hk as [_ Hk].
  - intros Hin. apply tstate_of_gone; [apply onRest_removes | done].
Qed.

Lemma onRest_keeps_the_others_witness :
  items (onRest item_a (run (take 2 sample_run) init)) !! 0%nat
  = Some (Item 1 (spread_key 1 (plain_payload "b"))).
Proof.
  refine (proj1 (proj2 (proj2 (onRest_keeps_the_others item_a
            (run (take 2 sample_run) init)))) 1%nat _ _ _).
  - reflexivity.
  - vm_compute. discriminate.
Defined.

(** ** Appending *)

(** C9, as the claim states it, fails: the second push of the payload with a
    [key] appends an item whose identity is already in the queue, and
    [useTransition] takes that identity as an update, not as entering. *)
Lemma second_keyed_push_does_not_enter :
  last (items (run [Pushed keyed_payload; Pushed keyed_payload] init))
  = Some (Item 1 (spread_key 1 keyed_payload))
  ∧ key (Item 1 (spread_key 1 keyed_payload)) = VNum 7
  ∧ tstate_of (identities (run [Pushed keyed_payload] init))
              (identities (run [Pushed keyed_payload; Pushed keyed_payload] init))
              (VNum 7)
    = Some Update.
Proof. repeat split. Qed.

(** C9 (amended): a call of [push] makes the queue one longer by putting one new item
    at its tail; every item that was queued is still at its index, unchanged;
    the new item carries the payload's properties; both caches and the record
    of cancellations are as before.  For [useTransition] the identities that
    were queued count as updates, and the new item enters whenever its
    identity is not one of theirs, which is so for every payload without a
    [key] of its own in a state of the invariant; a new item whose identity
    is already queued counts as an update of it. *)
Theorem push_appends_one (msg : obj) (w : world) :
  ∃ new,
    items (push msg w) = items w ++ [new]
    ∧ length (items (push msg w)) = S (length (items w))
    ∧ (∀ (i : nat) j, items w !! i = Some j → items (push msg w) !! i = Some j)
    ∧ (∀ p, p ≠ "key" → get (props new) p = get msg p)
    ∧ refMap (push msg w) = refMap w
    ∧ cancelMap (push msg w) = cancelMap w
    ∧ cancelled (push msg w) = cancelled w
    ∧ (∀ k, k ∈ identities w →
         tstate_of (identities w) (identities (push msg w)) k = Some Update)
    ∧ (key new ∉ identities w →
         tstate_of (identities w) (identities (push msg w)) (key new) = Some Enter)
    ∧ (hub_inv w → msg !! "key" = None → key new ∉ identities w).
Proof.
  exists (Item (next_addr w) (spread_key (id w) msg)).
  split; [apply items_push|].
  split; [rewrite items_push, length_app; simpl; lia|].
  split; [intros i j Hi; rewrite items_push; by apply lookup_app_l_Some|].
  split; [intros p Hp; by apply get_spread_key_other|].
  do 3 (split; [done|]).
  split.
  - intros k Hk. apply tstate_of_kept; [|done].
    rewrite identities_push. apply elem_of_app. by left.
  - split.
    + intros Hnew. apply tstate_of_new; [|done].
      rewrite identities_push. apply elem_of_app. right. constructor.
    + intros (_ & Hall & _) Hmsg. unfold key. simpl.
      rewrite get_spread_key_plain by done.
      by apply not_issued_twice.
Qed.

Lemma push_appends_one_witness :
  ∃ new, items (push (plain_payload "c") (run (take 3 sample_run) init))
         !! 1%nat = Some new
         ∧ tstate_of (identities (run (take 3 sample_run) init))
                     (identities (run sample_run init)) (key new) = Some Enter.
Proof.
  destruct (push_appends_one (plain_payload "c") (run (take 3 sample_run) init))
    as (new & Hitems & _ & _ & _ & _ & _ & _ & _ & Henter & _).
  exists new. split.
  - rewrite Hitems. reflexivity.
  - apply Henter. vm_compute in Hitems. injection Hitems as <-.
    vm_compute. intros Hin. apply list_elem_of_singleton in Hin. discriminate.
Defined.

(** ** Clicks *)

(** C5: a click on an item for which [cancelMap] holds no handle leaves the
    whole state as it was: the queue, the counter, both caches; no cancel
    function is called, and the handler returns normally. *)
Theorem click_without_handle (e : mouse_event) (it : item) (w : world) :
  cancelMap w !! addr it = None → (onClick e it w).2 = w.
Proof. intros Hnone. unfold onClick. simpl. by rewrite Hnone. Qed.

Lemma click_without_handle_witness :
  (onClick a_click item_a (run (take 2 leaving_run) init)).2
  = run (take 2 leaving_run) init.
Proof. apply click_without_handle. reflexivity. Defined.

Lemma click_with_handle (e : mouse_event) (it : item) (c : handle) (w : world) :
  cancelMap w !! addr it = Some c →
  (onClick e it w).2
  = World (id w) (next_addr w) (items w) (refMap w) (cancelMap w) (cancelled w ++ [c]).
Proof. intros Hc. unfold onClick. simpl. by rewrite Hc. Qed.

(** C4, as the claim states it, fails: the click handler reads the handle with
    [has] and [get] and never deletes it.  After a click during the [leave]
    script the handle is still in [cancelMap], and a second click calls the
    same cancel function a second time. *)
Lemma click_leaves_handle_in_place :
  cancelMap (run (leaving_run ++ [Clicked a_click item_a]) init) !! addr item_a
  = Some (Cancel 0)
  ∧ cancelled (run (leaving_run ++ [Clicked a_click item_a]) init) = [Cancel 0]
  ∧ cancelled (run (leaving_run ++ [Clicked a_click item_a; Clicked a_click item_a]) init)
    = [Cancel 0; Cancel 0].
Proof. repeat split. Qed.

(** C4 (amended): while [cancelMap] holds a handle for an item, every click on
    the item calls that handle once and leaves [cancelMap], the queue, the
    measurements and the counter as they were; the handle is not taken out, so
    [n] clicks call it [n] times. *)
Theorem click_calls_stored_handle (e : mouse_event) (it : item) (c : handle)
    (w : world) (n : nat) :
  cancelMap w !! addr it = Some c →
  cancelled (run (replicate n (Clicked e it)) w) = cancelled w ++ replicate n c
  ∧ cancelMap (run (replicate n (Clicked e it)) w) = cancelMap w
  ∧ items (run (replicate n (Clicked e it)) w) = items w
  ∧ refMap (run (replicate n (Clicked e it)) w) = refMap w
  ∧ id (run (replicate n (Clicked e it)) w) = id w.
Proof.
  revert w. induction n as [|n IH]; intros w Hc.
  - simpl. by rewrite app_nil_r.
  - cbn [replicate]. rewrite run_cons. cbn [step].
    rewrite (click_with_handle e it c w Hc).
    destruct (IH (World (id w) (next_addr w) (items w) (refMap w) (cancelMap w)
                        (cancelled w ++ [c])) Hc) as (-> & -> & -> & -> & ->).
    simpl. by rewrite <- app_assoc.
Qed.

Lemma click_calls_stored_handle_witness :
  cancelled (run (replicate 3 (Clicked a_click item_a)) (run leaving_run init))
  = cancelled (run leaving_run init) ++ replicate 3 (Cancel 0).
Proof.
  refine (proj1 (click_calls_stored_handle a_click item_a (Cancel 0)
                   (run leaving_run init) 3 _)).
  reflexivity.
Defined.

(** ** The caches *)

Lemma step_keeps_entries (w : world) (ev : event) (a : nat) :
  (is_Some (refMap w !! a) → is_Some (refMap (step w ev) !! a))
  ∧ (is_Some (cancelMap w !! a) → is_Some (cancelMap (step w ev) !! a)).
Proof.
  each_event ev; try done.
  - split; [|done]. simpl. intros Hsome.
    apply lookup_insert_is_Some. destruct (decide (addr it = a)); auto.
  - split; [done|]. simpl. intros Hsome.
    apply lookup_insert_is_Some. destruct (decide (addr it = a)); auto.
  - unfold onClick. simpl. by destruct (cancelMap w !! addr it).
Qed.

(** C6, as the claim states it, fails: [onRest] only filters [items].  Once
    the item is out of the queue its measured element is still in [refMap],
    and the cancel handle of its [leave] script, stored after the removal, is
    in [cancelMap]: looked up with the item, both are present. *)
Lemma removed_item_keeps_its_entries :
  items (run (take 3 leaving_run) init) = []
  ∧ refMap (run (take 3 leaving_run) init) !! addr item_a = Some (Element 40)
  ∧ items (run leaving_run init) = []
  ∧ refMap (run leaving_run init) !! addr item_a = Some (Element 40)
  ∧ cancelMap (run leaving_run init) !! addr item_a = Some (Cancel 0).
Proof. repeat split. Qed.

(** C6 (amended): the component never discards a cache entry.  Removing an
    item from the queue leaves [refMap] and [cancelMap] exactly as they were,
    and through any sequence of pushes, removals, measurements, leave starts
    and clicks an entry that is present stays present.  (The maps are weak:
    reclaiming an entry is left to the collection of its item object.) *)
Theorem cache_entries_are_never_discarded (evs : list event) (w : world) (a : nat) :
  (∀ it, refMap (onRest it w) = refMap w ∧ cancelMap (onRest it w) = cancelMap w)
  ∧ (is_Some (refMap w !! a) → is_Some (refMap (run evs w) !! a))
  ∧ (is_Some (cancelMap w !! a) → is_Some (cancelMap (run evs w) !! a)).
Proof.
  split; [done|].
  revert w. induction evs as [|ev evs IH]; intros w; [done|].
  rewrite run_cons. destruct (step_keeps_entries w ev a) as [Href Hcancel].
  destruct (IH (step w ev)) as [IHref IHcancel]. split; auto.
Qed.

Lemma cache_entries_are_never_discarded_witness :
  is_Some (refMap (run (drop 2 leaving_run) (run (take 2 leaving_run) init))
           !! addr item_a).
Proof.
  refine (proj1 (proj2 (cache_entries_are_never_discarded (drop 2 leaving_run)
                          (run (take 2 leaving_run) init) (addr item_a))) _).
  vm_compute. eauto.
Defined.

(** ** Entering and leaving *)

(** C3: run with the configuration the component gives for ["leave"], the
    [leave] script stores its cancel function and then awaits exactly three
    animation steps, in this order: [life] to ["0%"] as a timed step of
    duration [timeout], [opacity] to 0, and [height] to 0, the last two with
    the spring configuration, which is also the one configuration of
    ["enter"]; each step moves only its own value.  [life] starts at ["100%"]
    and entering does not move it. *)
Theorem leave_runs_three_phases (config : spring) (timeout : Z) (it : item)
    (cancel : handle) (v : style) (w : world) :
  run_script (config_fn config timeout it Leave) 0 v (leave it cancel) w
  = (cancelMap_set it cancel w,
     [Phase (Target None None (Some "0%")) (Some (Timed timeout))
            (Style (opacity v) (height v) "0%");
      Phase (Target (Some 0) None None) (Some (Sprung config))
            (Style 0 (height v) "0%");
      Phase (Target None (Some 0) None) (Some (Sprung config))
            (Style 0 0 "0%")],
     Finished)
  ∧ config_fn config timeout it Enter = Single (Sprung config)
  ∧ life from = "100%"
  ∧ Forall (λ ph, life (rests_at ph) = "100%")
      (run_script (config_fn config timeout it Enter) 0 from (enter it w) w).1.2.
Proof.
  repeat split. unfold enter.
  destruct (refMap w !! addr it); simpl; repeat constructor.
Qed.

(** C8, as the claim states it, fails: without an element recorded for the
    item, [refMap.get(item)] is [undefined] and reading its [offsetHeight]
    throws; the enter script fails before it sets any target, and nothing
    in the component supplies another height. *)
Lemma enter_throws_before_measurement :
  refMap (run (take 1 leaving_run) init) !! addr item_a = None
  ∧ run_script (config_fn default_config default_timeout item_a Enter) 0 from
      (enter item_a (run (take 1 leaving_run) init)) (run (take 1 leaving_run) init)
    = (run (take 1 leaving_run) init, [], Failed TypeError).
Proof. split; reflexivity. Qed.

(** C8 (amended): an item starts from opacity 0 and height 0; if the element
    of its content has been recorded in [refMap] when the enter script runs,
    the script awaits one step, with the spring configuration, to opacity 1
    and to that element's [offsetHeight], and finishes, the state unchanged. *)
Theorem enter_reaches_measured_height (config : spring) (timeout : Z) (it : item)
    (el : element) (w : world) :
  refMap w !! addr it = Some el →
  opacity from = 0 ∧ height from = 0
  ∧ run_script (config_fn config timeout it Enter) 0 from (enter it w) w
    = (w,
       [Phase (Target (Some 1) (Some (offsetHeight el)) None) (Some (Sprung config))
              (Style 1 (offsetHeight el) "100%")],
       Finished).
Proof. intros Hel. unfold enter. rewrite Hel. repeat split. Qed.

Lemma enter_reaches_measured_height_witness :
  run_script (config_fn default_config default_timeout item_a Enter) 0 from
    (enter item_a (run (take 2 leaving_run) init)) (run (take 2 leaving_run) init)
  = (run (take 2 leaving_run) init,
     [Phase (Target (Some 1) (Some 40) None) (Some (Sprung default_config))
            (Style 1 40 "100%")],
     Finished).
Proof.
  refine (proj2 (proj2 (enter_reaches_measured_height default_config default_timeout
                          item_a (Element 40) (run (take 2 leaving_run) init) _))).
  reflexivity.
Defined.

(** * Further properties of the callbacks *)

(** ** The counter over a run *)

Lemma post_incr_min (n : Z) :
  n ≤ exact_limit → (post_incr n).2 = Z.min (n + 1) exact_limit.
Proof. intros Hn. unfold post_incr. simpl. case_bool_decide; lia. Qed.

(** X1: over any run, whatever the payloads, the counter never goes down,
    moves only at pushes, and stops at [2^53]: it ends at the smaller of
    its start plus the number of pushes and [2^53]. *)
Theorem counter_after_run (evs : list event) (w : world) :
  id w ≤ exact_limit →
  id (run evs w) = Z.min (id w + pushes evs) exact_limit
  ∧ id w ≤ id (run evs w) ≤ exact_limit.
Proof.
  revert w. induction evs as [|ev evs IH]; intros w Hw.
  - simpl. lia.
  - rewrite run_cons. cbn [pushes].
    assert (Hstep : id (step w ev)
                    = Z.min (id w + (if is_push ev then 1 else 0)) exact_limit).
    { rewrite id_step. destruct (is_push ev); [by apply post_incr_min | lia]. }
    pose proof (pushes_nonneg evs) as Hpos.
    destruct (IH (step w ev)) as [-> _]; [lia|].
    rewrite Hstep. destruct (is_push ev); lia.
Qed.

Lemma counter_after_run_witness :
  id (run sample_run init) = Z.min (id init + pushes sample_run) exact_limit.
Proof.
  refine (proj1 (counter_after_run sample_run init _)).
  vm_compute. discriminate.
Defined.

(** ** Callbacks that leave the queue alone *)

Lemma step_frame (w : world) (ev : event) :
  sets_items ev = false →
  items (step w ev) = items w ∧ id (step w ev) = id w
  ∧ next_addr (step w ev) = next_addr w.
Proof.
  intros Hev. each_event ev; try done.
  unfold onClick. simpl. by destruct (cancelMap w !! addr it).
Qed.

(** X2: measurements, leave starts and clicks, in any number and order, never
    change the queue, the counter or the next object identity. *)
Theorem only_setItems_changes_queue (evs : list event) (w : world) :
  Forall (λ ev, sets_items ev = false) evs →
  items (run evs w) = items w ∧ id (run evs w) = id w
  ∧ next_addr (run evs w) = next_addr w.
Proof.
  revert w. induction evs as [|ev evs IH]; intros w Hevs; [done|].
  apply Forall_cons in Hevs as [Hev Hevs]. rewrite run_cons.
  destruct (step_frame w ev Hev) as (<- & <- & <-). by apply IH.
Qed.

Lemma only_setItems_changes_queue_witness :
  items (run (ContentRef item_a (Some (Element 40))
              :: LeaveStarted item_a (Cancel 0)
              :: replicate 2 (Clicked a_click item_a))
             (run (take 1 sample_run) init))
  = items (run (take 1 sample_run) init).
Proof.
  refine (proj1 (only_setItems_changes_queue _ _ _)).
  repeat constructor.
Defined.

(** ** A burst of pushes *)

Lemma run_pushes_items (msgs : list obj) (w : world) :
  id w + Z.of_nat (length msgs) ≤ exact_limit →
  items (run (Pushed <$> msgs) w)
  = items w ++ imap (λ i msg, Item (next_addr w + i)
                                   (spread_key (id w + Z.of_nat i) msg)) msgs.
Proof.
  revert w. induction msgs as [|msg msgs IH]; intros w Hlim.
  - simpl. by rewrite app_nil_r.
  - rewrite fmap_cons, run_cons. cbn [step]. rewrite imap_cons.
    cbn [length] in Hlim.
    assert (Hid : id (push msg w) = id w + 1)
      by (rewrite id_push; apply post_incr_below; lia).
    rewrite IH by lia. rewrite items_push, <- app_assoc.
    f_equal. cbn [app]. f_equal.
    + f_equal; [lia | f_equal; lia].
    + apply imap_ext. intros i x _. cbn [compose]. rewrite Hid.
      replace (next_addr (push msg w)) with (S (next_addr w)) by done.
      f_equal; [lia | f_equal; lia].
Qed.

(** X3: a burst of pushes, with the counter staying within [2^53], appends
    one item per payload, in call order: the [i]-th new item is a fresh
    object holding the [i]-th payload's properties, and, when the payload has
    no [key] of its own, the identity [id + i]. *)
Theorem pushes_append_in_call_order (msgs : list obj) (w : world) :
  id w + Z.of_nat (length msgs) ≤ exact_limit →
  length (items (run (Pushed <$> msgs) w)) = (length (items w) + length msgs)%nat
  ∧ take (length (items w)) (items (run (Pushed <$> msgs) w)) = items w
  ∧ (∀ (i : nat) msg, msgs !! i = Some msg →
       ∃ it, items (run (Pushed <$> msgs) w) !! (length (items w) + i)%nat = Some it
             ∧ addr it = (next_addr w + i)%nat
             ∧ (∀ p, p ≠ "key" → get (props it) p = get msg p)
             ∧ (msg !! "key" = None → key it = VNum (id w + Z.of_nat i))).
Proof.
  intros Hlim. rewrite (run_pushes_items msgs w Hlim).
  split; [by rewrite length_app, length_imap|].
  split; [by rewrite take_app_length|].
  intros i msg Hi. eexists. split.
  - rewrite lookup_app_r by lia.
    replace (length (items w) + i - length (items w))%nat with i by lia.
    rewrite list_lookup_imap, Hi. reflexivity.
  - split; [done|]. split.
    + intros p Hp. by apply get_spread_key_other.
    + intros Hmsg. by apply get_spread_key_plain.
Qed.

Lemma pushes_append_in_call_order_witness :
  length (items (run (Pushed <$> [plain_payload "x"; keyed_payload])
                     (run sample_run init)))
  = (length (items (run sample_run init)) + 2)%nat.
Proof.
  refine (proj1 (pushes_append_in_call_order [plain_payload "x"; keyed_payload]
                   (run sample_run init) _)).
  vm_compute. discriminate.
Defined.

(** ** The order of the queue *)

Lemma StronglySorted_filter_keeps {A} (R : relation A) (P : A → Prop)
    `{!∀ x, Decision (P x)} (l : list A) :
  StronglySorted R l → StronglySorted R (filter P l).
Proof.
  induction 1 as [|x l Hl IH Hx]; [constructor|].
  rewrite filter_cons. destruct (decide (P x)); [|done].
  constructor; [done|].
  apply Forall_forall. intros y [_ Hy]%list_elem_of_filter.
  rewrite Forall_forall in Hx. by apply Hx.
Qed.

Lemma sorted_step (w : world) (ev : event) :
  hub_inv w → StronglySorted key_lt (identities w) → plain ev →
  StronglySorted key_lt (identities (step w ev)).
Proof.
  intros (_ & Hall & _) Hsorted Hplain. each_event ev; try done.
  - rewrite identities_push, get_spread_key_plain by done.
    apply StronglySorted_app_2; [|done|repeat constructor].
    intros v1 v2 Hv1 ->%list_elem_of_singleton.
    unfold identities in Hv1.
    apply list_elem_of_fmap in Hv1 as (it & -> & Hit).
    rewrite Forall_forall in Hall. destruct (Hall it Hit) as (k & -> & Hk).
    simpl. lia.
  - rewrite identities_onRest. by apply StronglySorted_filter_keeps.
  - unfold onClick. simpl. by destruct (cancelMap w !! addr it).
Qed.

(** X4: in a state of the invariant whose queue is in ascending order of
    identity, every run of payloads without a [key] of their own that keeps
    the counter within [2^53] leaves the queue in strictly ascending order of
    identity: the order of the queue is the order of arrival. *)
Theorem queue_stays_in_order_of_arrival (evs : list event) (w : world) :
  hub_inv w → StronglySorted key_lt (identities w) →
  Forall plain evs → id w + pushes evs ≤ exact_limit →
  StronglySorted key_lt (identities (run evs w)).
Proof.
  revert w. induction evs as [|ev evs IH]; intros w Hinv Hsorted Hplain Hlim;
    [done|].
  apply Forall_cons in Hplain as [Hev Hplain]. cbn [pushes] in Hlim.
  pose proof (pushes_nonneg evs) as Hpos.
  assert (Hpush : is_push ev = true → id w < exact_limit)
    by (intros Heq; rewrite Heq in Hlim; lia).
  rewrite run_cons. apply IH; [by apply hub_inv_step | by apply sorted_step | done |].
  rewrite id_step. destruct (is_push ev); [|lia].
  rewrite post_incr_below by auto. lia.
Qed.

Lemma queue_stays_in_order_of_arrival_witness :
  StronglySorted key_lt (identities (run sample_run init)).
Proof.
  apply queue_stays_in_order_of_arrival.
  - split; [simpl; lia | split; constructor].
  - constructor.
  - repeat constructor.
  - vm_compute. discriminate.
Defined.

(** ** Removals among themselves and among pushes *)

Lemma world_eq (w1 w2 : world) :
  id w1 = id w2 → next_addr w1 = next_addr w2 → items w1 = items w2 →
  refMap w1 = refMap w2 → cancelMap w1 = cancelMap w2 →
  cancelled w1 = cancelled w2 → w1 = w2.
Proof. destruct w1, w2. simpl. by intros -> -> -> -> -> ->. Qed.

(** X5: two removals give the same state in either order. *)
Theorem onRest_commutes (a b : item) (w : world) :
  onRest a (onRest b w) = onRest b (onRest a w).
Proof.
  apply world_eq; try done. unfold onRest. simpl.
  rewrite !list_filter_filter. apply list_filter_iff. intros i. tauto.
Qed.

(** X6: a removal and a push whose new item has another identity than the
    removed one give the same state in either order; in particular for a
    payload without [key] and a removed identity other than the counter's
    value. *)
Theorem onRest_commutes_with_push (it : item) (msg : obj) (w : world) :
  get (spread_key (id w) msg) "key" ≠ key it →
  onRest it (push msg w) = push msg (onRest it w).
Proof.
  intros Hne. apply world_eq; try done.
  unfold onRest. cbn [items]. rewrite !items_push. cbn [items id next_addr].
  rewrite filter_app. f_equal.
  by rewrite filter_cons_True.
Qed.

Lemma onRest_commutes_with_push_witness :
  onRest item_a (push (plain_payload "c") (run (take 2 sample_run) init))
  = push (plain_payload "c") (onRest item_a (run (take 2 sample_run) init)).
Proof.
  apply onRest_commutes_with_push. vm_compute. discriminate.
Defined.

(** X7: in a state of the invariant, pushing a payload without [key] and
    then removing the new item gives back the queue as it was, with both
    caches untouched; only the counter and the next object identity have
    moved on. *)
Theorem push_then_remove (msg : obj) (w : world) :
  hub_inv w → msg !! "key" = None →
  items (onRest (Item (next_addr w) (spread_key (id w) msg)) (push msg w)) = items w
  ∧ refMap (onRest (Item (next_addr w) (spread_key (id w) msg)) (push msg w)) = refMap w
  ∧ cancelMap (onRest (Item (next_addr w) (spread_key (id w) msg)) (push msg w))
    = cancelMap w
  ∧ id w ≤ id (onRest (Item (next_addr w) (spread_key (id w) msg)) (push msg w)).
Proof.
  intros (_ & Hall & _) Hmsg. split; [|split; [done|split; [done|]]].
  - unfold onRest. cbn [items]. rewrite items_push, filter_app.
    rewrite filter_cons_False, filter_nil, app_nil_r by (intros Hne; by apply Hne).
    apply filter_all, Forall_forall. intros i Hi Heq.
    apply (not_issued_twice w (id w) Hall); [lia|].
    unfold key at 2 in Heq. simpl in Heq.
    rewrite get_spread_key_plain in Heq by done. rewrite <- Heq.
    unfold identities. by apply list_elem_of_fmap_2.
  - unfold onRest. cbn [id]. rewrite id_push. apply post_incr_mono.
Qed.

Lemma push_then_remove_witness :
  items (onRest (Item (next_addr (run sample_run init))
                      (spread_key (id (run sample_run init)) (plain_payload "d")))
                (push (plain_payload "d") (run sample_run init)))
  = items (run sample_run init).
Proof.
  refine (proj1 (push_then_remove (plain_payload "d") (run sample_run init) _ _)).
  - apply reachable_inv; [repeat constructor | vm_compute; discriminate].
  - reflexivity.
Defined.

(** X8: when the identities in the queue are pairwise distinct, removing one
    that is in the queue makes the queue exactly one shorter. *)
Theorem onRest_shrinks_by_one (it : item) (w : world) :
  NoDup (identities w) → key it ∈ identities w →
  S (length (items (onRest it w))) = length (items w).
Proof.
  unfold identities, onRest. cbn [items].
  induction (items w) as [|i l IH]; intros Hnd Hin.
  - by apply elem_of_nil in Hin.
  - rewrite fmap_cons in Hnd, Hin. apply NoDup_cons in Hnd as [Hi Hnd].
    rewrite filter_cons. destruct (decide (key i ≠ key it)) as [Hne|Heq].
    + cbn [length]. f_equal. apply IH; [done|].
      apply elem_of_cons in Hin as [Hin|Hin]; [by symmetry in Hin|done].
    + apply dec_stable in Heq. cbn [length]. f_equal.
      rewrite filter_all; [done|].
      apply Forall_forall. intros j Hj Hjk. apply Hi.
      rewrite Heq, <- Hjk. by apply list_elem_of_fmap_2.
Qed.

Lemma onRest_shrinks_by_one_witness :
  S (length (items (onRest item_a (run (take 2 sample_run) init))))
  = length (items (run (take 2 sample_run) init)).
Proof.
  apply onRest_shrinks_by_one.
  - vm_compute. apply NoDup_cons. split; [|apply NoDup_singleton].
    intros Hin. apply list_elem_of_singleton in Hin. discriminate.
  - vm_compute. constructor.
Defined.

(** ** Items as objects *)

Lemma addr_inv_step (w : world) (ev : event) : addr_inv w → addr_inv (step w ev).
Proof.
  intros [Hlt Hnd]. each_event ev; try done.
  - unfold addr_inv. rewrite items_push, fmap_app. cbn [next_addr push post_incr].
    split.
    + apply Forall_app. split.
      * eapply Forall_impl; [done|]. intros i Hi. simpl in Hi. lia.
      * constructor; [simpl; lia | constructor].
    + apply NoDup_app. split; [done|]. split; [|apply NoDup_singleton].
      intros a Ha ->%list_elem_of_singleton.
      apply list_elem_of_fmap in Ha as (i & Hai & Hi).
      rewrite Forall_forall in Hlt. specialize (Hlt i Hi). simpl in Hai, Hlt. lia.
  - unfold addr_inv, onRest. cbn [items next_addr]. split.
    + apply Forall_forall. intros i [_ Hi]%list_elem_of_filter.
      rewrite Forall_forall in Hlt. by apply Hlt.
    + eapply sublist_NoDup; [done|]. apply fmap_sublist, sublist_filter.
  - unfold onClick. simpl. by destruct (cancelMap w !! addr it).
Qed.

Lemma addr_inv_run (evs : list event) (w : world) : addr_inv w → addr_inv (run evs w).
Proof.
  revert w. induction evs as [|ev evs IH]; intros w Hinv; [done|].
  rewrite run_cons. by apply IH, addr_inv_step.
Qed.

(** X9: after any run from the first mount, whatever the payloads, the items
    of the queue are pairwise distinct objects, also when their identities
    coincide; so recording an element or a cancel function for one item of
    the queue never changes what the caches hold for another. *)
Theorem queued_items_are_distinct_objects (evs : list event) :
  NoDup (addr <$> items (run evs init))
  ∧ (∀ (i j : nat) a b, i ≠ j →
       items (run evs init) !! i = Some a → items (run evs init) !! j = Some b →
       addr a ≠ addr b
       ∧ (∀ r, refMap (content_ref a r (run evs init)) !! addr b
               = refMap (run evs init) !! addr b)
       ∧ (∀ c, cancelMap (cancelMap_set a c (run evs init)) !! addr b
               = cancelMap (run evs init) !! addr b)).
Proof.
  destruct (addr_inv_run evs init) as [_ Hnd]; [by split; constructor|].
  split; [done|]. intros i j a b Hij Ha Hb.
  assert (Hab : addr a ≠ addr b).
  { intros Heq. apply Hij. eapply NoDup_lookup; [done| |].
    - by rewrite list_lookup_fmap, Ha.
    - by rewrite list_lookup_fmap, Hb, Heq. }
  split; [done|]. split.
  - intros [el|]; [|done]. simpl. by rewrite lookup_insert_ne.
  - intros c. simpl. by rewrite lookup_insert_ne.
Qed.

Lemma queued_items_are_distinct_objects_witness :
  key <$> items (run [Pushed keyed_payload; Pushed keyed_payload] init)
  = [VNum 7; VNum 7]
  ∧ addr (Item 0 (spread_key 0 keyed_payload)) ≠ addr (Item 1 (spread_key 1 keyed_payload)).
Proof.
  split; [reflexivity|].
  refine (proj1 (proj2 (queued_items_are_distinct_objects
                          [Pushed keyed_payload; Pushed keyed_payload])
                   0%nat 1%nat _ _ _ _ _)).
  - discriminate.
  - reflexivity.
  - reflexivity.
Defined.

(** ** Measurements *)

Lemma step_keeps_measurement (w : world) (ev : event) (a : nat) (el : element) :
  measures a ev = false → refMap w !! a = Some el → refMap (step w ev) !! a = Some el.
Proof.
  intros Hev Hel. each_event ev; try done.
  - simpl in *. apply bool_decide_eq_false in Hev. by rewrite lookup_insert_ne.
  - unfold onClick. simpl. by destruct (cancelMap w !! addr it).
Qed.

Lemma run_keeps_measurement (evs : list event) (w : world) (a : nat) (el : element) :
  Forall (λ ev, measures a ev = false) evs →
  refMap w !! a = Some el → refMap (run evs w) !! a = Some el.
Proof.
  revert w. induction evs as [|ev evs IH]; intros w Hevs Hel; [done|].
  apply Forall_cons in Hevs as [Hev Hevs]. rewrite run_cons.
  by apply IH, step_keeps_measurement.
Qed.

Lemma run_keeps_measured (evs : list event) (w : world) (a : nat) :
  is_Some (refMap w !! a) → is_Some (refMap (run evs w) !! a).
Proof.
  revert w. induction evs as [|ev evs IH]; intros w Hsome; [done|].
  rewrite run_cons. by apply IH, step_keeps_entries.
Qed.

(** X10: once the ref callback has recorded an element for an item, the
    enter script of that item does not throw, whatever pushes, removals,
    clicks, leave starts and further measurements follow; and as long as no
    other element is recorded for the same item, it aims at the height of the
    element recorded. *)
Theorem measured_item_can_enter (evs : list event) (it : item) (el : element)
    (w : world) :
  (∃ el', enter it (run evs (content_ref it (Some el) w))
          = AwaitNext (Target (Some 1) (Some (offsetHeight el')) None) Return)
  ∧ (Forall (λ ev, measures (addr it) ev = false) evs →
     enter it (run evs (content_ref it (Some el) w))
     = AwaitNext (Target (Some 1) (Some (offsetHeight el)) None) Return).
Proof.
  assert (Hel : refMap (content_ref it (Some el) w) !! addr it = Some el)
    by apply lookup_insert_eq.
  split.
  - destruct (run_keeps_measured evs (content_ref it (Some el) w) (addr it))
      as [el' Hel']; [by eexists|].
    exists el'. unfold enter. by rewrite Hel'.
  - intros Hevs. unfold enter.
    by rewrite (run_keeps_measurement evs _ _ el Hevs Hel).
Qed.

Lemma measured_item_can_enter_witness :
  enter item_a (run (drop 2 leaving_run)
                    (content_ref item_a (Some (Element 40)) (run (take 1 leaving_run) init)))
  = AwaitNext (Target (Some 1) (Some 40) None) Return.
Proof.
  refine (proj2 (measured_item_can_enter (drop 2 leaving_run) item_a (Element 40)
                   (run (take 1 leaving_run) init)) _).
  repeat constructor.
Defined.

(** X11: the ref callback keeps the last element it was given for an item,
    does nothing when given [null], and its recordings for different
    objects give the same state in either order. *)
Theorem content_ref_keeps_last (it other : item) (el1 el2 : element)
    (r : option element) (w : world) :
  content_ref it (Some el2) (content_ref it (Some el1) w) = content_ref it (Some el2) w
  ∧ content_ref it None (content_ref it (Some el1) w) = content_ref it (Some el1) w
  ∧ refMap (content_ref it None (content_ref it (Some el1) w)) !! addr it = Some el1
  ∧ (addr other ≠ addr it →
     content_ref it (Some el1) (content_ref other r w)
     = content_ref other r (content_ref it (Some el1) w)).
Proof.
  split; [|split; [done|split; [apply lookup_insert_eq|]]].
  - apply world_eq; try done. simpl. apply insert_insert_eq.
  - intros Hne. destruct r as [el|]; [|done].
    apply world_eq; try done. simpl. by apply insert_insert_ne.
Qed.

Lemma content_ref_keeps_last_witness :
  content_ref item_a (Some (Element 40))
    (content_ref (Item 1 ∅) (Some (Element 7)) init)
  = content_ref (Item 1 ∅) (Some (Element 7))
      (content_ref item_a (Some (Element 40)) init).
Proof.
  refine (proj2 (proj2 (proj2 (content_ref_keeps_last item_a (Item 1 ∅) (Element 40)
            (Element 40) (Some (Element 7)) init))) _).
  discriminate.
Defined.

(** ** Cancel functions *)

Lemma leave_stores_cancel (cp : config_prop) (index : nat) (v : style) (it : item)
    (c : handle) (w : world) :
  (run_script cp index v (leave it c) w).1.1 = cancelMap_set it c w.
Proof. reflexivity. Qed.

(** X12: after the leave script of an item has run, also when all its steps
    are done, a click on the item calls the cancel function that script was
    given; if a leave script ran for the item twice, the click calls the
    cancel function of the later one; and a click on a different object does
    what it did before. *)
Theorem click_reaches_cancel_of_leave (cp : config_prop) (v : style)
    (e : mouse_event) (it other : item) (c0 c : handle) (w : world) :
  cancelled (onClick e it (run_script cp 0 v (leave it c) w).1.1).2
  = cancelled w ++ [c]
  ∧ cancelled (onClick e it
      (run_script cp 0 v (leave it c) (run_script cp 0 v (leave it c0) w).1.1).1.1).2
    = cancelled w ++ [c]
  ∧ (addr other ≠ addr it →
     (onClick e other (run_script cp 0 v (leave it c) w).1.1).2
     = cancelMap_set it c (onClick e other w).2).
Proof.
  rewrite !leave_stores_cancel. split; [|split].
  - unfold onClick. simpl. by rewrite lookup_insert_eq.
  - unfold onClick. simpl. by rewrite lookup_insert_eq.
  - intros Hne. unfold onClick. simpl. rewrite lookup_insert_ne by done.
    by destruct (cancelMap w !! addr other).
Qed.

Lemma click_reaches_cancel_of_leave_witness :
  (onClick a_click (Item 1 ∅)
     (run_script (config_fn default_config default_timeout item_a Leave) 0 from
        (leave item_a (Cancel 0)) init).1.1).2
  = cancelMap_set item_a (Cancel 0) (onClick a_click (Item 1 ∅) init).2.
Proof.
  refine (proj2 (proj2 (click_reaches_cancel_of_leave _ from a_click item_a (Item 1 ∅)
            (Cancel 0) (Cancel 0) init)) _).
  discriminate.
Defined.

(** ** The rendered messages *)

(** X13: the component renders one message per transition, in the order of
    the transitions, each under the transition's key and wired to the
    transition's item: its ref callback and its click handler are those of
    that item.  The [life] value goes to the life bar, which is always
    rendered, and never to the message's style; every other animated value
    goes to the style unchanged. *)
Theorem render_one_message_per_transition (ts : list transition) :
  length (render ts) = length ts
  ∧ (∀ (i : nat) t, ts !! i = Some t →
       ∃ v, render ts !! i = Some v
            ∧ view_key v = t_key t
            ∧ (∀ r w, view_ref v r w = content_ref (t_item t) r w)
            ∧ (∀ e w, view_click v e w = onClick e (t_item t) w)
            ∧ life_right v = Some (get (t_props t) "life")
            ∧ view_style v !! "life" = None
            ∧ (∀ p, p ≠ "life" → view_style v !! p = t_props t !! p)).
Proof.
  unfold render. split; [apply length_fmap|].
  intros i t Hi. exists (render_message t).
  split; [by rewrite list_lookup_fmap, Hi|].
  do 4 (split; [done|]).
  split; [apply lookup_delete_eq|].
  intros p Hp. simpl. by rewrite lookup_delete_ne.
Qed.

Lemma render_one_message_per_transition_witness :
  ∃ v, render [Transition (VNum 0) item_a
                 {[ "opacity" := VNum 1; "height" := VNum 40; "life" := VStr "100%" ]}]
       !! 0%nat = Some v
       ∧ life_right v = Some (VStr "100%")
       ∧ view_style v !! "opacity" = Some (VNum 1).
Proof.
  destruct (proj2 (render_one_message_per_transition
              [Transition (VNum 0) item_a
                 {[ "opacity" := VNum 1; "height" := VNum 40; "life" := VStr "100%" ]}])
              0%nat _ eq_refl)
    as (v & Hv & _ & _ & _ & Hlife & _ & Hstyle).
  exists v. split; [done|]. split; [done|].
  rewrite Hstyle by discriminate. reflexivity.
Defined.

(** X14: the message rendered for the item a push created shows the
    payload's [title] and [message] and takes its title colour from the
    payload's [titleColor], for every payload, also one that carries a [key];
    what the payload lacks is shown as [undefined]. *)
Theorem pushed_payload_is_what_is_shown (msg : obj) (w : world) (t : transition) :
  last (items (push msg w)) = Some (t_item t) →
  title_text (render_message t) = get msg "title"
  ∧ message_text (render_message t) = get msg "message"
  ∧ title_color (render_message t) = get msg "titleColor"
  ∧ (msg !! "title" = None → title_text (render_message t) = VUndefined).
Proof.
  rewrite items_push, last_snoc. intros [= Hitem].
  unfold render_message. cbn [title_text message_text title_color].
  rewrite <- Hitem. cbn [props].
  rewrite !get_spread_key_other by done.
  repeat split. intros Hnone. unfold get. by rewrite Hnone.
Qed.

Lemma pushed_payload_is_what_is_shown_witness :
  title_text (render_message
                (Transition (VNum 0) (Item 0 (spread_key 0 keyed_payload)) ∅))
  = get keyed_payload "title".
Proof.
  refine (proj1 (pushed_payload_is_what_is_shown keyed_payload init
                   (Transition (VNum 0) (Item 0 (spread_key 0 keyed_payload)) ∅) _)).
  reflexivity.
Defined.

(** ** The container *)

(** X15: whatever its props, [Container] is anchored to exactly one edge, 2em
    away from it: to the top, stacking in reverse, when [top] is truthy, and
    to the bottom, stacking in order, otherwise, which includes being given
    no [top] at all. *)
Theorem container_has_one_anchor (width : QArith_base.Q) (p : obj) :
  (truthy (get p "top") = true
   ∧ css_top (Container width p) = "2em" ∧ css_bottom (Container width p) = "unset"
   ∧ flex_direction (Container width p) = "column-reverse"
   ∨ truthy (get p "top") = false
     ∧ css_top (Container width p) = "unset" ∧ css_bottom (Container width p) = "2em"
     ∧ flex_direction (Container width p) = "column")
  ∧ (p !! "top" = None →
     css_bottom (Container width p) = "2em"
     ∧ flex_direction (Container width p) = "column").
Proof.
  split.
  - unfold Container. simpl. destruct (truthy (get p "top")); [left|right]; done.
  - intros Hnone. unfold Container, get. simpl. by rewrite Hnone.
Qed.

Lemma container_has_one_anchor_witness :
  css_bottom (Container (QArith_base.Qmake 1024 1) ∅) = "2em"
  ∧ flex_direction (Container (QArith_base.Qmake 1024 1) ∅) = "column".
Proof. apply container_has_one_anchor. reflexivity. Defined.

(** X16: on a viewport of at most 680 pixels [Container] centres its messages
    whatever its props.  On a wider one it centres them exactly when
    [position] is the string ["center"]; a falsy [position] (absent, empty,
    [0], [false]) gives ["flex-end"]; any other string gives ["flex-"]
    followed by it. *)
Theorem container_alignment (width : QArith_base.Q) (p : obj) :
  (narrow width = true → align_items (Container width p) = "center")
  ∧ (narrow width = false →
     (align_items (Container width p) = "center" ↔ get p "position" = VStr "center")
     ∧ (truthy (get p "position") = false →
        align_items (Container width p) = "flex-end")
     ∧ (∀ s, get p "position" = VStr s → s ≠ "" → s ≠ "center" →
          align_items (Container width p) = "flex-" +:+ s)).
Proof.
  unfold Container. simpl. split; [by intros ->|]. intros ->. split; [|split].
  - case_bool_decide as Hpos; [done|]. split; [discriminate | done].
  - intros Hfalsy. case_bool_decide as Hpos.
    + rewrite Hpos in Hfalsy. discriminate.
    + unfold js_or. by rewrite Hfalsy.
  - intros s Hs Hne Hnc. rewrite Hs. rewrite bool_decide_eq_false_2 by congruence.
    unfold js_or. simpl. by rewrite bool_decide_eq_true_2.
Qed.

Lemma container_alignment_witness :
  align_items (Container (QArith_base.Qmake 680 1) {[ "position" := VStr "start" ]})
  = "center"
  ∧ align_items (Container (QArith_base.Qmake 1024 1) {[ "position" := VStr "start" ]})
    = "flex-start".
Proof.
  split.
  - refine (proj1 (container_alignment (QArith_base.Qmake 680 1)
                     {[ "position" := VStr "start" ]}) _).
    reflexivity.
  - refine (proj2 (proj2 (proj2 (container_alignment (QArith_base.Qmake 1024 1)
                     {[ "position" := VStr "start" ]}) _)) "start" _ _ _).
    + reflexivity.
    + reflexivity.
    + discriminate.
    + discriminate.
Defined.
